(** * Conversation summary synchronisation and ordering

    A shallow embedding of the three code fragments that keep the chat list
    stable: the last-message update issued by the conversation service
    ([ChatModel.findByIdAndUpdate]), the [$sort] stage of the listing
    pipeline, and the [pre('save')] middleware of the chat schema.

    Instants are JavaScript [Date] values, modelled by their millisecond
    count; object ids are modelled by the unsigned value of their twelve
    bytes, which is the order the database compares them in. *)

From Stdlib Require Import ZArith NArith Lia.
From stdpp Require Import base option list gmap sorting strings.

Local Open Scope string_scope.
Local Open Scope list_scope.
Local Open Scope Z_scope.

(** ** Data model *)

Abbreviation ObjectId := N (only parsing).
Abbreviation Date := Z (only parsing).

(** The fields of a chat document that the fragments read or write. The
    document's [_id] is the key under which the collection holds it. *)
Record Chat := mkChat {
  name : string;
  lastMessage : option ObjectId;
  lastMessageText : option string;
  lastMessageTimestamp : option Date;
  lastMessageSender : option ObjectId;
  lastMessageType : option string;
  updatedAt : Date
}.

Abbreviation Chats := (gmap N Chat) (only parsing).

Record Message := mkMessage {
  createdAt : Date
}.

(** What is in scope where the conversation service updates the summary. *)
Record MessageEvent := mkEvent {
  messageId : ObjectId;
  previewText : string;
  message : Message;
  senderId : ObjectId;
  messageType : string
}.

(** An update document: the paths it names are overwritten, the others are
    left as they are. *)
Record ChatUpdate := mkUpdate {
  set_lastMessage : option ObjectId;
  set_lastMessageText : option string;
  set_lastMessageTimestamp : option Date;
  set_lastMessageSender : option ObjectId;
  set_lastMessageType : option string;
  set_updatedAt : option Date
}.

Definition applyUpdate (u : ChatUpdate) (c : Chat) : Chat :=
  {| name := name c;
     lastMessage :=
       match set_lastMessage u with Some v => Some v | None => lastMessage c end;
     lastMessageText :=
       match set_lastMessageText u with
       | Some v => Some v | None => lastMessageText c end;
     lastMessageTimestamp :=
       match set_lastMessageTimestamp u with
       | Some v => Some v | None => lastMessageTimestamp c end;
     lastMessageSender :=
       match set_lastMessageSender u with
       | Some v => Some v | None => lastMessageSender c end;
     lastMessageType :=
       match set_lastMessageType u with
       | Some v => Some v | None => lastMessageType c end;
     updatedAt :=
       match set_updatedAt u with Some v => v | None => updatedAt c end |}.

(** ** The store primitive

    [findByIdAndUpdate id u { new: true }]: the document with that id is
    updated and returned as it is after the update; without [upsert] a
    missing id writes nothing and yields [null]. *)
Definition findByIdAndUpdate (id : ObjectId) (u : ChatUpdate) (chats : Chats)
  : Chats * option Chat :=
  match chats !! id with
  | Some c => let c' := applyUpdate u c in (<[id := c']> chats, Some c')
  | None => (chats, None)
  end.

(** ** The last-message update of the conversation service (fix 1) *)

Definition lastMessageUpdate (ev : MessageEvent) : ChatUpdate :=
  let updateTimestamp := createdAt (message ev) in
  {| set_lastMessage := Some (messageId ev);
     set_lastMessageText := Some (previewText ev);
     set_lastMessageTimestamp := Some updateTimestamp;
     set_lastMessageSender := Some (senderId ev);
     set_lastMessageType := Some (messageType ev);
     set_updatedAt := Some updateTimestamp |}.

Definition updateLastMessage (chatId : ObjectId) (ev : MessageEvent)
  (chats : Chats) : Chats * option Chat :=
  findByIdAndUpdate chatId (lastMessageUpdate ev) chats.

(** The update as it was before the fix: [updatedAt] takes a fresh clock
    read [now]. *)
Definition lastMessageUpdate_before (now : Date) (ev : MessageEvent)
  : ChatUpdate :=
  {| set_lastMessage := Some (messageId ev);
     set_lastMessageText := Some (previewText ev);
     set_lastMessageTimestamp := Some (createdAt (message ev));
     set_lastMessageSender := Some (senderId ev);
     set_lastMessageType := Some (messageType ev);
     set_updatedAt := Some now |}.

(** The summary a message leaves behind, whatever was stored before. *)
Definition summaryOf (ev : MessageEvent) (c : Chat) : Chat :=
  {| name := name c;
     lastMessage := Some (messageId ev);
     lastMessageText := Some (previewText ev);
     lastMessageTimestamp := Some (createdAt (message ev));
     lastMessageSender := Some (senderId ev);
     lastMessageType := Some (messageType ev);
     updatedAt := createdAt (message ev) |}.

(** Instants that may be absent: an absent one is below every present one. *)
Definition tsLe (a b : option Date) : Prop :=
  match a, b with
  | None, _ => True
  | Some _, None => False
  | Some x, Some y => x <= y
  end.

Global Instance tsLe_dec a b : Decision (tsLe a b).
Proof. destruct a, b; simpl; apply _. Defined.

(** The states a reader of the store sees while events are applied one
    after the other: the initial one and the one after each update. *)
Fixpoint observedStates (chatId : ObjectId) (evs : list MessageEvent)
  (chats : Chats) : list Chats :=
  chats ::
  match evs with
  | [] => []
  | ev :: evs' => observedStates chatId evs' (updateLastMessage chatId ev chats).1
  end.

Definition observedTimestamps (chatId : ObjectId) (evs : list MessageEvent)
  (chats : Chats) : list (option Date) :=
  omap (λ s : Chats, lastMessageTimestamp <$> s !! chatId)
       (observedStates chatId evs chats).


(** ** The [pre('save')] middleware of the chat schema (fix 3)

    A document in memory: the values it holds, whether it has never been
    stored, and the paths assigned since it was loaded. *)
Record Document := mkDocument {
  _id : ObjectId;
  fields : Chat;
  isNew : bool;
  modifiedPaths : list string
}.

(** [this.isModified()] and [this.isModified(path)]. *)
Definition isModified (this : Document) : bool :=
  bool_decide (modifiedPaths this ≠ []).

Definition isModifiedPath (path : string) (this : Document) : bool :=
  bool_decide (path ∈ modifiedPaths this).

(** [this.updatedAt = v]; an assignment of the instant already held marks
    nothing. *)
Definition assignUpdatedAt (v : Date) (this : Document) : Document :=
  if decide (v = updatedAt (fields this)) then this
  else
    {| _id := _id this;
       fields :=
         {| name := name (fields this);
            lastMessage := lastMessage (fields this);
            lastMessageText := lastMessageText (fields this);
            lastMessageTimestamp := lastMessageTimestamp (fields this);
            lastMessageSender := lastMessageSender (fields this);
            lastMessageType := lastMessageType (fields this);
            updatedAt := v |};
       isNew := isNew this;
       modifiedPaths := "updatedAt" :: modifiedPaths this |}.

(** [this.name = v]; an assignment of the value already held marks nothing. *)
Definition assignName (v : string) (this : Document) : Document :=
  if decide (v = name (fields this)) then this
  else
    {| _id := _id this;
       fields :=
         {| name := v;
            lastMessage := lastMessage (fields this);
            lastMessageText := lastMessageText (fields this);
            lastMessageTimestamp := lastMessageTimestamp (fields this);
            lastMessageSender := lastMessageSender (fields this);
            lastMessageType := lastMessageType (fields this);
            updatedAt := updatedAt (fields this) |};
       isNew := isNew this;
       modifiedPaths := "name" :: modifiedPaths this |}.

(** The hook; [now] is the value of [new Date()] when it runs. *)
Definition preSave (now : Date) (this : Document) : Document :=
  if isModified this && negb (isNew this) then
    if negb (isModifiedPath "lastMessageTimestamp" this) then
      assignUpdatedAt now this
    else this
  else this.

(** The hook as it was before the fix. *)
Definition preSave_before (now : Date) (this : Document) : Document :=
  if isModified this && negb (isNew this) then assignUpdatedAt now this
  else this.

(** [dst] with the value at [path] taken from [src]. *)
Definition copyPath (path : string) (src dst : Chat) : Chat :=
  let pick {A} (p : string) (f : Chat → A) : A :=
    if decide (path = p) then f src else f dst in
  {| name := pick "name" name;
     lastMessage := pick "lastMessage" lastMessage;
     lastMessageText := pick "lastMessageText" lastMessageText;
     lastMessageTimestamp := pick "lastMessageTimestamp" lastMessageTimestamp;
     lastMessageSender := pick "lastMessageSender" lastMessageSender;
     lastMessageType := pick "lastMessageType" lastMessageType;
     updatedAt := pick "updatedAt" updatedAt |}.

Definition writeModified (this : Document) (stored : Chat) : Chat :=
  foldr (λ path acc, copyPath path (fields this) acc) stored
        (modifiedPaths this).

(** [doc.save()]: the hook runs, then a new document is inserted whole and
    a stored one receives the values at its modified paths. Nothing is
    written when the insert meets a document stored under the same id (the
    collection refuses the duplicate key) or when the stored document is
    gone. *)
Definition save (now : Date) (doc : Document) (chats : Chats) : Chats :=
  let this := preSave now doc in
  match chats !! _id this with
  | Some stored =>
      if isNew this then chats
      else <[_id this := writeModified this stored]> chats
  | None =>
      if isNew this then <[_id this := fields this]> chats else chats
  end.

(** ** The [$sort] stage of the listing pipeline (fix 2) *)

Inductive bson :=
  | BNull
  | BString (s : string)
  | BObjectId (o : ObjectId)
  | BDate (d : Date).

(** Place of a value's type in the database's comparison order; a missing
    field compares as null. *)
Definition bsonRank (v : bson) : Z :=
  match v with
  | BNull => 2
  | BString _ => 4
  | BObjectId _ => 8
  | BDate _ => 10
  end.

Definition bsonCompare (a b : bson) : comparison :=
  match a, b with
  | BNull, BNull => Eq
  | BString s, BString t => String.compare s t
  | BObjectId x, BObjectId y => N.compare x y
  | BDate x, BDate y => Z.compare x y
  | _, _ => Z.compare (bsonRank a) (bsonRank b)
  end.

(** The value a pipeline document, an id with its fields, has at a path. *)
Definition getPath (path : string) (d : N * Chat) : bson :=
  if decide (path = "_id") then BObjectId d.1
  else if decide (path = "name") then BString (name d.2)
  else if decide (path = "lastMessage") then
    from_option BObjectId BNull (lastMessage d.2)
  else if decide (path = "lastMessageText") then
    from_option BString BNull (lastMessageText d.2)
  else if decide (path = "lastMessageTimestamp") then
    from_option BDate BNull (lastMessageTimestamp d.2)
  else if decide (path = "lastMessageSender") then
    from_option BObjectId BNull (lastMessageSender d.2)
  else if decide (path = "lastMessageType") then
    from_option BString BNull (lastMessageType d.2)
  else if decide (path = "updatedAt") then BDate (updatedAt d.2)
  else BNull.

(** A sort specification lists paths with a direction, [1] ascending and
    [-1] descending; later paths break the ties of earlier ones. *)
Fixpoint sortCompare (spec : list (string * Z)) (a b : N * Chat)
  : comparison :=
  match spec with
  | [] => Eq
  | (path, dir) :: spec' =>
      match bsonCompare (getPath path a) (getPath path b) with
      | Eq => sortCompare spec' a b
      | c => if dir <? 0 then CompOpp c else c
      end
  end.

(** [a] may stand before [b]. *)
Definition sortLe (spec : list (string * Z)) (a b : N * Chat) : Prop :=
  sortCompare spec a b ≠ Gt.

Global Instance sortLe_dec spec a b : Decision (sortLe spec a b).
Proof. unfold sortLe. apply _. Defined.

(** The stage puts the documents in an order the specification allows.
    Where the specification leaves two documents tied the database promises
    no order between them; the order this function gives them is none of
    the stage's contract, and no statement below rests on it. *)
Definition sortStage (spec : list (string * Z)) (docs : list (N * Chat))
  : list (N * Chat) :=
  merge_sort (sortLe spec) docs.

Definition sortAfter : list (string * Z) :=
  [("lastMessageTimestamp", -1); ("_id", -1)].

Definition sortBefore : list (string * Z) :=
  [("lastMessageTimestamp", -1); ("updatedAt", -1)].

(** The listing over a snapshot of the collection. *)
Definition listChats (chats : Chats) : list (N * Chat) :=
  sortStage sortAfter (map_to_list chats).

(** The sort key of fix 2 and the order it puts documents in: later
    instant first, absent instants last, larger id first among equals. *)
Definition sortKey (d : N * Chat) : option Date * N :=
  (lastMessageTimestamp d.2, d.1).

Definition keyBefore (k1 k2 : option Date * N) : Prop :=
  (tsLe k2.1 k1.1 ∧ k1.1 ≠ k2.1) ∨ (k1.1 = k2.1 ∧ (k2.2 ≤ k1.2)%N).

(** A chat with its [updatedAt] blanked out. *)
Definition eraseUpdatedAt (c : Chat) : Chat :=
  {| name := name c;
     lastMessage := lastMessage c;
     lastMessageText := lastMessageText c;
     lastMessageTimestamp := lastMessageTimestamp c;
     lastMessageSender := lastMessageSender c;
     lastMessageType := lastMessageType c;
     updatedAt := 0 |}.

Definition hasMessage (d : N * Chat) : Prop :=
  is_Some (lastMessageTimestamp d.2).

(** ** Events applied in a row *)

(** The collection after the service has handled the events one after the
    other, each through its own update. *)
Definition applyEvents (chatId : ObjectId) (evs : list MessageEvent)
  (chats : Chats) : Chats :=
  foldl (λ s ev, (updateLastMessage chatId ev s).1) chats evs.

(** ** The checks of the test script

    [Array.prototype.findIndex]: the place of the first element that
    satisfies [p], [-1] when there is none. *)
Fixpoint findIndex {A} (p : A → bool) (l : list A) : Z :=
  match l with
  | [] => -1
  | x :: l' =>
      if p x then 0
      else let i := findIndex p l' in if i =? -1 then -1 else i + 1
  end.

(** [finalConversations.findIndex(chat => chat._id === testChat._id)]; the
    script reports success when the result is [0]. *)
Definition chatIndex (testChatId : ObjectId)
  (finalConversations : list (N * Chat)) : Z :=
  findIndex (λ chat, N.eqb chat.1 testChatId) finalConversations.

(** A date field as it arrives in a response body: left out, [null], or
    the instant itself. *)
Inductive jsonDate :=
  | JUndefined
  | JNull
  | JDate (ms : Date).

(** [new Date(v).getTime()]; [None] stands for [NaN], the time of the
    invalid date that [new Date(undefined)] is. *)
Definition getTime (v : jsonDate) : option Z :=
  match v with
  | JUndefined => None
  | JNull => Some 0
  | JDate ms => Some ms
  end.

(** [Math.abs(lastMsgTime.getTime() - updatedTime.getTime())]. *)
Definition timeDiff (lastMsgTime updatedTime : jsonDate) : option Z :=
  match getTime lastMsgTime, getTime updatedTime with
  | Some a, Some b => Some (Z.abs (a - b))
  | _, _ => None
  end.

(** [timeDiff < 1000], which no [NaN] satisfies. *)
Definition timestampsConsistent (lastMsgTime updatedTime : jsonDate) : bool :=
  match timeDiff lastMsgTime updatedTime with
  | Some d => d <? 1000
  | None => false
  end.

(** ** Sample data used by the examples below *)

Definition generalChat : Chat :=
  mkChat "general" (Some 7%N) (Some "hello") (Some 100) (Some 3%N)
         (Some "text") 100.

Definition randomChat : Chat :=
  mkChat "random" (Some 6%N) (Some "photo.png") (Some 100) (Some 4%N)
         (Some "file") 140.

Definition emptyChat : Chat := mkChat "empty" None None None None None 900.

Definition freshChat : Chat := mkChat "fresh" None None None None None 20.

Definition sampleChats : gmap N Chat :=
  {[ 1%N := generalChat; 2%N := randomChat; 3%N := emptyChat;
     4%N := freshChat ]}.

Definition lateEvent : MessageEvent :=
  mkEvent 8%N "sent earlier" (mkMessage 50) 4%N "text".

Definition nextEvent : MessageEvent :=
  mkEvent 9%N "see you" (mkMessage 150) 3%N "text".

(** The sample collection with other [updatedAt] values. *)
Definition restampedChats : gmap N Chat :=
  {[ 1%N := mkChat "general" (Some 7%N) (Some "hello") (Some 100) (Some 3%N)
                   (Some "text") 5000;
     2%N := mkChat "random" (Some 6%N) (Some "photo.png") (Some 100) (Some 4%N)
                   (Some "file") 100;
     3%N := mkChat "empty" None None None None None 1;
     4%N := mkChat "fresh" None None None None None 7000 ]}.

(** Two conversations whose last messages were created at the same
    instant, as the update leaves them. *)
Definition tiedGeneral : N * Chat := (1%N, summaryOf nextEvent generalChat).

Definition tiedRandom : N * Chat := (2%N, summaryOf nextEvent randomChat).

(** A stored chat being renamed, one receiving a message through [save],
    and one about to be stored for the first time. *)
Definition renamedDoc : Document :=
  assignName "general talk" (mkDocument 1%N generalChat false []).

Definition messageDoc : Document :=
  mkDocument 1%N
    (mkChat "general talk" (Some 9%N) (Some "see you") (Some 150) (Some 3%N)
            (Some "text") 150)
    false ["lastMessageTimestamp"; "updatedAt"; "name"].

Definition newDoc : Document := mkDocument 5%N freshChat true ["name"].

Definition untouchedDoc : Document := mkDocument 1%N generalChat false [].

(** * Properties *)

(** ** The last-message update *)

Lemma applyUpdate_lastMessageUpdate ev c :
  applyUpdate (lastMessageUpdate ev) c = summaryOf ev c.
Proof. reflexivity. Qed.

Lemma updateLastMessage_found chatId ev (chats : gmap N Chat) c :
  chats !! chatId = Some c →
  updateLastMessage chatId ev chats =
    (<[chatId := summaryOf ev c]> chats, Some (summaryOf ev c)).
Proof.
  intros Hc. unfold updateLastMessage, findByIdAndUpdate. by rewrite Hc.
Qed.

Lemma updateLastMessage_missing chatId ev (chats : gmap N Chat) :
  chats !! chatId = None →
  updateLastMessage chatId ev chats = (chats, None).
Proof.
  intros Hc. unfold updateLastMessage, findByIdAndUpdate. by rewrite Hc.
Qed.

(** C1. After a message-triggered update of a stored conversation the
    summary has [lastMessageTimestamp] and [updatedAt] both equal to the one
    instant [message.createdAt], hence equal to each other. *)
Theorem sync_timestamp_coherence chatId ev (chats : gmap N Chat) c :
  chats !! chatId = Some c →
  ∃ c', (updateLastMessage chatId ev chats).1 !! chatId = Some c'
      ∧ (updateLastMessage chatId ev chats).2 = Some c'
      ∧ lastMessageTimestamp c' = Some (createdAt (message ev))
      ∧ updatedAt c' = createdAt (message ev)
      ∧ lastMessageTimestamp c' = Some (updatedAt c').
Proof.
  intros Hc. exists (summaryOf ev c).
  rewrite (updateLastMessage_found _ _ _ _ Hc). simpl.
  by rewrite lookup_insert_eq.
Qed.

Lemma sync_timestamp_coherence_witness :
  ∃ c', (updateLastMessage 1 nextEvent sampleChats).1 !! 1%N = Some c'
      ∧ (updateLastMessage 1 nextEvent sampleChats).2 = Some c'
      ∧ lastMessageTimestamp c' = Some 150
      ∧ updatedAt c' = 150
      ∧ lastMessageTimestamp c' = Some (updatedAt c').
Proof.
  apply (sync_timestamp_coherence 1 nextEvent sampleChats generalChat).
  reflexivity.
Defined.

(** Before the fix the two fields came from two clock reads and could
    differ. *)
Example before_fix_incoherent :
  let c' := applyUpdate (lastMessageUpdate_before 151 nextEvent) generalChat in
  lastMessageTimestamp c' = Some 150 ∧ updatedAt c' = 151.
Proof. by split. Qed.

(** C7. Applying the same message event twice in succession leaves the
    store, and the summary handed back, exactly as one application does. *)
Theorem sync_idempotent chatId ev (chats : gmap N Chat) :
  updateLastMessage chatId ev (updateLastMessage chatId ev chats).1
  = updateLastMessage chatId ev chats.
Proof.
  destruct (chats !! chatId) as [c|] eqn:Hc.
  - rewrite (updateLastMessage_found _ _ _ _ Hc). simpl.
    rewrite (updateLastMessage_found _ _ _ (summaryOf ev c));
      last by rewrite lookup_insert_eq.
    by rewrite insert_insert_eq.
  - rewrite (updateLastMessage_missing _ _ _ Hc). simpl.
    by rewrite (updateLastMessage_missing _ _ _ Hc).
Qed.

(** C2, as stated, fails: a message older than the stored instant moves
    [lastMessageTimestamp] back to its own [createdAt]; the larger of the
    two is not what is written. *)
Lemma sync_older_message_moves_timestamp_back :
  lastMessageTimestamp <$> sampleChats !! 1%N = Some (Some 100)
  ∧ lastMessageTimestamp <$> (updateLastMessage 1 lateEvent sampleChats).1 !! 1%N
    = Some (Some 50)
  ∧ ¬ tsLe (Some 100) (Some 50)
  ∧ Z.max 100 50 ≠ 50.
Proof.
  split; [reflexivity|]. split; [reflexivity|].
  split; [simpl; lia | lia].
Qed.

Lemma observedTimestamps_cons chatId ev evs (chats : gmap N Chat) c :
  chats !! chatId = Some c →
  observedTimestamps chatId (ev :: evs) chats =
    lastMessageTimestamp c ::
    observedTimestamps chatId evs (<[chatId := summaryOf ev c]> chats).
Proof.
  intros Hc. unfold observedTimestamps. simpl.
  by rewrite Hc, (updateLastMessage_found _ _ _ _ Hc).
Qed.

(** C2, amended. Every update of a stored conversation takes place and
    writes [message.createdAt] itself: the instants a reader observes are the
    stored one followed by the [createdAt] of each message in the order of
    application, so they never decrease when the messages are applied in
    the order of their creation. *)
Theorem sync_timestamp_trace evs chatId (chats : gmap N Chat) c :
  chats !! chatId = Some c →
  observedTimestamps chatId evs chats =
    lastMessageTimestamp c :: map (λ ev, Some (createdAt (message ev))) evs
  ∧ (Sorted tsLe
       (lastMessageTimestamp c :: map (λ ev, Some (createdAt (message ev))) evs)
     → Sorted tsLe (observedTimestamps chatId evs chats)).
Proof.
  intros Hc.
  assert (observedTimestamps chatId evs chats =
    lastMessageTimestamp c :: map (λ ev, Some (createdAt (message ev))) evs)
    as ->; [|done].
  revert chats c Hc. induction evs as [|ev evs IH]; intros chats c Hc.
  - unfold observedTimestamps. simpl. by rewrite Hc.
  - rewrite (observedTimestamps_cons _ _ _ _ _ Hc).
    rewrite (IH _ (summaryOf ev c)); [done|by rewrite lookup_insert_eq].
Qed.

Lemma sync_timestamp_trace_witness :
  observedTimestamps 1 [nextEvent; nextEvent] sampleChats =
    [Some 100; Some 150; Some 150]
  ∧ (Sorted tsLe [Some 100; Some 150; Some 150]
     → Sorted tsLe (observedTimestamps 1 [nextEvent; nextEvent] sampleChats)).
Proof.
  apply (sync_timestamp_trace [nextEvent; nextEvent] 1 sampleChats generalChat).
  reflexivity.
Defined.

(** ** The save hook *)

Lemma isModified_true this : isModified this = true ↔ modifiedPaths this ≠ [].
Proof. unfold isModified. by rewrite bool_decide_eq_true. Qed.

Lemma isModifiedPath_true path this :
  isModifiedPath path this = true ↔ path ∈ modifiedPaths this.
Proof. unfold isModifiedPath. by rewrite bool_decide_eq_true. Qed.

Lemma isModifiedPath_false path this :
  isModifiedPath path this = false ↔ path ∉ modifiedPaths this.
Proof. unfold isModifiedPath. by rewrite bool_decide_eq_false. Qed.

Lemma preSave_defers now this :
  "lastMessageTimestamp" ∈ modifiedPaths this → preSave now this = this.
Proof.
  intros Hin%isModifiedPath_true. unfold preSave. rewrite Hin. simpl.
  by destruct (isModified this && negb (isNew this)).
Qed.

Lemma preSave_idle now this :
  isModified this = false ∨ isNew this = true → preSave now this = this.
Proof.
  unfold preSave. intros [-> | ->]; [done|]. by rewrite andb_false_r.
Qed.

Lemma preSave_stamps now this :
  "lastMessageTimestamp" ∉ modifiedPaths this →
  modifiedPaths this ≠ [] → isNew this = false →
  preSave now this = assignUpdatedAt now this.
Proof.
  intros Hnot%isModifiedPath_false Hmod%isModified_true Hnew.
  unfold preSave. by rewrite Hmod, Hnew, Hnot.
Qed.

Lemma assignUpdatedAt_updatedAt v this :
  updatedAt (fields (assignUpdatedAt v this)) = v.
Proof. unfold assignUpdatedAt. by destruct (decide _). Qed.

Lemma assignUpdatedAt_frame v this :
  _id (assignUpdatedAt v this) = _id this
  ∧ isNew (assignUpdatedAt v this) = isNew this
  ∧ eraseUpdatedAt (fields (assignUpdatedAt v this))
    = eraseUpdatedAt (fields this).
Proof. unfold assignUpdatedAt. by destruct (decide _). Qed.


(** C4, as stated, fails: a persist that does not touch
    [lastMessageTimestamp] is not stamped when the document is new, nor
    when nothing at all was modified. *)
Lemma guard_leaves_new_document_unstamped :
  ("lastMessageTimestamp" ∉ modifiedPaths newDoc)
  ∧ updatedAt (fields (preSave 1000 newDoc)) = 20
  ∧ ("lastMessageTimestamp" ∉ modifiedPaths untouchedDoc)
  ∧ updatedAt (fields (preSave 1000 untouchedDoc)) = 100.
Proof.
  split; [by apply isModifiedPath_false|]. split; [done|].
  split; [by apply isModifiedPath_false|done].
Qed.

(** C4, amended. A persist that modifies [lastMessageTimestamp], alone or
    with other paths, leaves the document as it is, so [updatedAt] keeps
    the value already assigned. A persist that does not modify it gets
    [updatedAt = now] from the guard when the document is modified and not
    new, and is left as it is otherwise. *)
Theorem guard_updatedAt_cases now this :
  ("lastMessageTimestamp" ∈ modifiedPaths this → preSave now this = this)
  ∧ ("lastMessageTimestamp" ∉ modifiedPaths this →
     modifiedPaths this ≠ [] → isNew this = false →
     updatedAt (fields (preSave now this)) = now
     ∧ lastMessageTimestamp (fields (preSave now this))
       = lastMessageTimestamp (fields this)
     ∧ name (fields (preSave now this)) = name (fields this))
  ∧ ("lastMessageTimestamp" ∉ modifiedPaths this →
     modifiedPaths this = [] ∨ isNew this = true →
     preSave now this = this).
Proof.
  split_and!.
  - apply preSave_defers.
  - intros Hnot Hmod Hnew. rewrite preSave_stamps by done.
    destruct (assignUpdatedAt_frame now this) as (_ & _ & Hframe).
    split; [apply assignUpdatedAt_updatedAt|].
    split; [exact (f_equal lastMessageTimestamp Hframe)
           |exact (f_equal name Hframe)].
  - intros _ [Hmod|Hnew]; apply preSave_idle; [left|by right].
    unfold isModified. rewrite Hmod. apply bool_decide_eq_false.
    intros Hne. by apply Hne.
Qed.

Lemma guard_updatedAt_cases_witness :
  preSave 1000 messageDoc = messageDoc
  ∧ updatedAt (fields (preSave 1000 renamedDoc)) = 1000
  ∧ preSave 1000 newDoc = newDoc.
Proof.
  destruct (guard_updatedAt_cases 1000 messageDoc) as (Hdefer & _ & _).
  destruct (guard_updatedAt_cases 1000 renamedDoc) as (_ & Hstamp & _).
  destruct (guard_updatedAt_cases 1000 newDoc) as (_ & _ & Hidle).
  split_and!.
  - apply Hdefer. by apply isModifiedPath_true.
  - apply Hstamp; [by apply isModifiedPath_false|done|done].
  - apply Hidle; [by apply isModifiedPath_false|by right].
Defined.

(** Before the fix the hook stamped a message-triggered persist too. *)
Example preSave_before_overwrites :
  updatedAt (fields (preSave_before 1000 messageDoc)) = 1000
  ∧ lastMessageTimestamp (fields (preSave_before 1000 messageDoc)) = Some 150.
Proof. by split. Qed.

(** C10. The guard assigns [updatedAt] only to a document that is modified
    and not new, and only [save] runs it: a first save stores the document
    as it was written (and stores nothing when the id is taken), and an
    update through [findByIdAndUpdate] stores exactly what the update
    document names, with [updatedAt] the message's own instant. *)
Theorem guard_scope now this chatId ev (chats : gmap N Chat) :
  (isModified this = false ∨ isNew this = true → preSave now this = this)
  ∧ (updatedAt (fields (preSave now this)) ≠ updatedAt (fields this) →
     isModified this = true ∧ isNew this = false)
  ∧ (isNew this = true → chats !! _id this = None →
     save now this chats !! _id this = Some (fields this))
  ∧ (isNew this = true → is_Some (chats !! _id this) →
     save now this chats = chats)
  ∧ (∀ c, chats !! chatId = Some c →
       (updateLastMessage chatId ev chats).1 !! chatId
         = Some (applyUpdate (lastMessageUpdate ev) c)
       ∧ updatedAt (applyUpdate (lastMessageUpdate ev) c)
         = createdAt (message ev)).
Proof.
  split_and!.
  - apply preSave_idle.
  - intros Hne. destruct (isModified this) eqn:Hmod, (isNew this) eqn:Hnew;
      try done; exfalso; apply Hne; rewrite preSave_idle; auto.
  - intros Hnew Hfree. unfold save. rewrite preSave_idle by auto.
    rewrite Hfree, Hnew. by rewrite lookup_insert_eq.
  - intros Hnew [stored Hst]. unfold save. rewrite preSave_idle by auto.
    by rewrite Hst, Hnew.
  - intros c Hc. rewrite (updateLastMessage_found _ _ _ _ Hc). simpl.
    by rewrite lookup_insert_eq.
Qed.

Lemma guard_scope_witness :
  preSave 1000 newDoc = newDoc
  ∧ save 1000 newDoc sampleChats !! 5%N = Some freshChat
  ∧ (updateLastMessage 1 nextEvent sampleChats).1 !! 1%N
      = Some (applyUpdate (lastMessageUpdate nextEvent) generalChat)
  ∧ updatedAt (applyUpdate (lastMessageUpdate nextEvent) generalChat) = 150.
Proof.
  destruct (guard_scope 1000 newDoc 1 nextEvent sampleChats)
    as (Hidle & _ & Hcreate & _ & Hsync).
  split; [apply Hidle; by right|].
  split; [apply Hcreate; reflexivity|].
  apply Hsync. reflexivity.
Defined.

(** A first save under an id that is taken leaves the stored conversation
    as it is. *)
Example save_duplicate_id_rejected :
  save 1000 (mkDocument 1%N freshChat true ["name"]) sampleChats = sampleChats.
Proof. reflexivity. Qed.

(** ** The sort stage *)

Lemma sortCompare_after a b :
  sortCompare sortAfter a b =
    match bsonCompare (from_option BDate BNull (lastMessageTimestamp a.2))
                      (from_option BDate BNull (lastMessageTimestamp b.2)) with
    | Eq => CompOpp (N.compare a.1 b.1)
    | c => CompOpp c
    end.
Proof.
  unfold sortAfter, sortCompare, getPath. simpl.
  by destruct (bsonCompare _ _).
Qed.

(** Case analysis on a comparison of keys: split the disjunctions, turn
    facts about present instants into facts about numbers, and leave the
    arithmetic to [lia]. *)
Ltac key_split :=
  repeat match goal with
  | H : _ ∨ _ |- _ => destruct H
  | H : _ ∧ _ |- _ => destruct H
  | H : ?x ≠ ?x |- _ => by destruct H
  | H : Some ?x ≠ Some ?y |- _ =>
      assert (x ≠ y) by (intros ->; by apply H); clear H
  | H : Some _ = Some _ |- _ => injection H as H
  | H : Some _ = None |- _ => discriminate H
  | H : None = Some _ |- _ => discriminate H
  | H : False |- _ => destruct H
  end.

Ltac key_solve :=
  key_split; subst;
  first [ done
        | lia
        | by (right; split; [done|lia])
        | by (left; split; [lia|intros ?; simplify_eq; lia])
        | by (left; split; [done|done])
        | by (f_equal; lia)
        | by (do 2 f_equal; lia) ].

Lemma sortLe_after_iff a b :
  sortLe sortAfter a b ↔ keyBefore (sortKey a) (sortKey b).
Proof.
  unfold sortLe. rewrite sortCompare_after.
  destruct a as [i c], b as [j d]. unfold keyBefore, sortKey. simpl.
  destruct (lastMessageTimestamp c) as [x|], (lastMessageTimestamp d) as [y|];
    simpl.
  - destruct (Z.compare_spec x y), (N.compare_spec i j); simpl;
      split; intros Hle; key_solve.
  - split; intros Hle; key_solve.
  - split; intros Hle; key_solve.
  - destruct (N.compare_spec i j); simpl; split; intros Hle; key_solve.
Qed.

Global Instance keyBefore_total : Total keyBefore.
Proof.
  intros [[x|] i] [[y|] j]; unfold keyBefore; simpl.
  - destruct (Z.lt_total x y) as [?|[->|?]].
    + right. key_solve.
    + destruct (N.le_ge_cases i j); [right|left]; key_solve.
    + left. key_solve.
  - left. key_solve.
  - right. key_solve.
  - destruct (N.le_ge_cases i j); [right|left]; key_solve.
Qed.

Global Instance keyBefore_trans : Transitive keyBefore.
Proof.
  intros [[x|] i] [[y|] j] [[z|] k]; unfold keyBefore; simpl;
    intros H1 H2; key_solve.
Qed.

Global Instance keyBefore_antisym : AntiSymm (=) keyBefore.
Proof.
  intros [[x|] i] [[y|] j]; unfold keyBefore; simpl; intros H1 H2; key_solve.
Qed.

Global Instance sortLe_after_total : Total (sortLe sortAfter).
Proof.
  intros a b. rewrite !sortLe_after_iff. apply total, _.
Qed.

Global Instance sortLe_after_trans : Transitive (sortLe sortAfter).
Proof.
  intros a b c. rewrite !sortLe_after_iff. apply transitivity.
Qed.

Lemma sortStage_perm spec docs : sortStage spec docs ≡ₚ docs.
Proof. apply merge_sort_Permutation. Qed.

Lemma sortStage_sorted docs :
  StronglySorted (sortLe sortAfter) (sortStage sortAfter docs).
Proof. apply Sorted_StronglySorted; [apply _|]. apply Sorted_merge_sort, _. Qed.

Lemma sortStage_keys_sorted docs :
  StronglySorted keyBefore (sortKey <$> sortStage sortAfter docs).
Proof.
  eapply StronglySorted_fmap; [|apply sortStage_sorted].
  intros a b. by rewrite sortLe_after_iff.
Qed.

Lemma sortStage_keys docs1 docs2 :
  sortKey <$> docs1 ≡ₚ sortKey <$> docs2 →
  sortKey <$> sortStage sortAfter docs1 = sortKey <$> sortStage sortAfter docs2.
Proof.
  intros Hperm.
  apply (StronglySorted_unique keyBefore); try apply sortStage_keys_sorted.
  by rewrite !sortStage_perm.
Qed.

Lemma keys_of_snapshot (chats : gmap N Chat) :
  sortKey <$> map_to_list chats
  ≡ₚ (λ p : N * option Z, (p.2, p.1))
       <$> map_to_list (lastMessageTimestamp <$> chats).
Proof.
  rewrite map_to_list_fmap, <-list_fmap_compose.
  erewrite list_fmap_ext; [done|]. by intros _ [] _.
Qed.

Lemma listChats_keys (chats1 chats2 : gmap N Chat) :
  lastMessageTimestamp <$> chats1 = lastMessageTimestamp <$> chats2 →
  sortKey <$> listChats chats1 = sortKey <$> listChats chats2.
Proof.
  intros Heq. apply sortStage_keys. by rewrite !keys_of_snapshot, Heq.
Qed.

Lemma keys_ids (docs : list (N * Chat)) : (sortKey <$> docs).*2 = docs.*1.
Proof. rewrite <-list_fmap_compose. by apply list_fmap_ext. Qed.

Lemma listChats_ids (chats1 chats2 : gmap N Chat) :
  lastMessageTimestamp <$> chats1 = lastMessageTimestamp <$> chats2 →
  (listChats chats1).*1 = (listChats chats2).*1.
Proof.
  intros Heq. rewrite <-!keys_ids. f_equal. by apply listChats_keys.
Qed.

Lemma same_id_same_doc (docs : list (N * Chat)) a b :
  NoDup docs.*1 → a ∈ docs → b ∈ docs → a.1 = b.1 → a = b.
Proof.
  induction docs as [|d docs IH]; [by intros _ ?%elem_of_nil|].
  rewrite fmap_cons, NoDup_cons. intros [Hd Hnd] Ha Hb Hab.
  apply elem_of_cons in Ha as [->|Ha]; apply elem_of_cons in Hb as [->|Hb].
  - done.
  - destruct Hd. rewrite Hab. by apply list_elem_of_fmap_2.
  - destruct Hd. rewrite <-Hab. by apply list_elem_of_fmap_2.
  - by apply IH.
Qed.

Lemma sortCompare_after_Eq a b :
  sortCompare sortAfter a b = Eq → a.1 = b.1.
Proof.
  rewrite sortCompare_after.
  destruct (bsonCompare _ _); [|done|done].
  by destruct (N.compare_spec a.1 b.1).
Qed.

Lemma sortLe_after_antisym a b :
  sortLe sortAfter a b → sortLe sortAfter b a → a.1 = b.1.
Proof.
  rewrite !sortLe_after_iff. intros H1 H2.
  pose proof (anti_symm keyBefore _ _ H1 H2) as Heq.
  unfold sortKey in Heq. by simplify_eq.
Qed.

Lemma sortStage_unique docs1 docs2 :
  NoDup docs1.*1 → docs1 ≡ₚ docs2 →
  sortStage sortAfter docs1 = sortStage sortAfter docs2.
Proof.
  intros Hnd Hperm.
  apply (StronglySorted_unique_strong (sortLe sortAfter));
    try apply sortStage_sorted; [|by rewrite !sortStage_perm].
  intros a b Ha Hb Hab Hba. apply (same_id_same_doc docs1); auto.
  - by rewrite <-(sortStage_perm sortAfter docs1).
  - by rewrite Hperm, <-(sortStage_perm sortAfter docs2).
  - by apply sortLe_after_antisym.
Qed.

Lemma sortKey_eraseUpdatedAt d :
  sortKey (prod_map id eraseUpdatedAt d) = sortKey d.
Proof. by destruct d. Qed.

Lemma listChats_eraseUpdatedAt (chats : gmap N Chat) :
  prod_map id eraseUpdatedAt <$> listChats chats
  = listChats (eraseUpdatedAt <$> chats).
Proof.
  assert (prod_map id eraseUpdatedAt <$> listChats chats
          ≡ₚ map_to_list (eraseUpdatedAt <$> chats)) as Hperm.
  { unfold listChats. by rewrite sortStage_perm, map_to_list_fmap. }
  apply (StronglySorted_unique_strong (sortLe sortAfter)).
  - intros a b Ha Hb Hab Hba.
    apply (same_id_same_doc (map_to_list (eraseUpdatedAt <$> chats)));
      [apply NoDup_fst_map_to_list|by rewrite <-Hperm| |].
    + unfold listChats in Hb. by rewrite sortStage_perm in Hb.
    + by apply sortLe_after_antisym.
  - eapply StronglySorted_fmap; [|apply sortStage_sorted].
    intros a b. by rewrite !sortLe_after_iff, !sortKey_eraseUpdatedAt.
  - apply sortStage_sorted.
  - rewrite Hperm. unfold listChats. by rewrite sortStage_perm.
Qed.

(** C3. The listing is the snapshot put in the order of the key
    ([lastMessageTimestamp] descending, then the id descending), and
    [updatedAt] has no part in it: two snapshots that differ only in
    [updatedAt] values are listed in the same order, document for document. *)
Theorem listChats_ignores_updatedAt (chats1 chats2 : gmap N Chat) :
  eraseUpdatedAt <$> chats1 = eraseUpdatedAt <$> chats2 →
  StronglySorted keyBefore (sortKey <$> listChats chats1)
  ∧ listChats chats1 ≡ₚ map_to_list chats1
  ∧ (listChats chats1).*1 = (listChats chats2).*1
  ∧ prod_map id eraseUpdatedAt <$> listChats chats1
    = prod_map id eraseUpdatedAt <$> listChats chats2.
Proof.
  intros Heq. split_and!.
  - apply sortStage_keys_sorted.
  - apply sortStage_perm.
  - apply listChats_ids.
    assert (∀ m : gmap N Chat,
      lastMessageTimestamp <$> m
      = lastMessageTimestamp <$> (eraseUpdatedAt <$> m)) as Hm.
    { intros m. by rewrite <-map_fmap_compose. }
    by rewrite (Hm chats1), (Hm chats2), Heq.
  - by rewrite !listChats_eraseUpdatedAt, Heq.
Qed.

Lemma listChats_ignores_updatedAt_witness :
  StronglySorted keyBefore (sortKey <$> listChats sampleChats)
  ∧ listChats sampleChats ≡ₚ map_to_list sampleChats
  ∧ (listChats sampleChats).*1 = (listChats restampedChats).*1
  ∧ prod_map id eraseUpdatedAt <$> listChats sampleChats
    = prod_map id eraseUpdatedAt <$> listChats restampedChats.
Proof.
  apply (listChats_ignores_updatedAt sampleChats restampedChats).
  reflexivity.
Defined.

(** With [updatedAt] as second key, as before the fix, the same two
    snapshots are listed differently. *)
Example sortBefore_depends_on_updatedAt :
  (sortStage sortBefore (map_to_list sampleChats)).*1 = [2; 1; 3; 4]%N
  ∧ (sortStage sortBefore (map_to_list restampedChats)).*1 = [1; 2; 4; 3]%N
  ∧ (listChats sampleChats).*1 = [2; 1; 4; 3]%N
  ∧ (listChats restampedChats).*1 = [2; 1; 4; 3]%N.
Proof. by vm_compute. Qed.

(** C5. The listing of a snapshot does not depend on the order in which
    the documents reach the sort stage, whatever instants coincide: the sort
    key never leaves two different documents of a snapshot tied. *)
Theorem listChats_deterministic (chats : gmap N Chat) docs :
  docs ≡ₚ map_to_list chats →
  sortStage sortAfter docs = listChats chats
  ∧ (∀ a b, a ∈ docs → b ∈ docs → a ≠ b → sortCompare sortAfter a b ≠ Eq).
Proof.
  intros Hperm.
  assert (NoDup docs.*1) as Hnd.
  { rewrite Hperm. apply NoDup_fst_map_to_list. }
  split.
  - by apply sortStage_unique.
  - intros a b Ha Hb Hne Heq. apply Hne.
    apply (same_id_same_doc docs); auto using sortCompare_after_Eq.
Qed.

Lemma listChats_deterministic_witness :
  sortStage sortAfter (reverse (map_to_list sampleChats))
    = listChats sampleChats
  ∧ (∀ a b, a ∈ reverse (map_to_list sampleChats) →
            b ∈ reverse (map_to_list sampleChats) →
            a ≠ b → sortCompare sortAfter a b ≠ Eq).
Proof.
  apply (listChats_deterministic sampleChats (reverse (map_to_list sampleChats))).
  apply reverse_Permutation.
Defined.

Lemma no_message_after_no_message a b :
  sortLe sortAfter a b → ¬ hasMessage a → ¬ hasMessage b ∧ (b.1 ≤ a.1)%N.
Proof.
  rewrite sortLe_after_iff. unfold hasMessage, keyBefore, sortKey. simpl.
  rewrite <-!eq_None_not_Some. intros Hle Ha. rewrite Ha in Hle.
  destruct (lastMessageTimestamp b.2); key_solve.
Qed.

Lemma sorted_message_split docs :
  StronglySorted (sortLe sortAfter) docs →
  ∃ withMessage noMessage,
    docs = withMessage ++ noMessage
    ∧ Forall hasMessage withMessage
    ∧ Forall (λ d, ¬ hasMessage d) noMessage.
Proof.
  induction 1 as [|d docs Hs (l1 & l2 & -> & H1 & H2) Hd].
  { by exists [], []. }
  destruct (lastMessageTimestamp d.2) as [t|] eqn:Ht.
  - exists (d :: l1), l2. split_and!; [done| |done].
    constructor; [|done]. unfold hasMessage. by rewrite Ht.
  - assert (¬ hasMessage d) as Hno.
    { unfold hasMessage. rewrite Ht. by intros [? ?]. }
    exists [], (d :: l1 ++ l2). split_and!; [done|done|].
    constructor; [done|].
    eapply Forall_impl; [exact Hd|].
    intros b Hb. by apply (no_message_after_no_message d b).
Qed.

Lemma no_message_descending docs :
  StronglySorted (sortLe sortAfter) docs →
  Forall (λ d, ¬ hasMessage d) docs → NoDup docs.*1 →
  StronglySorted (λ a b, (b.1 < a.1)%N) docs.
Proof.
  induction 1 as [|d docs Hs IH Hd]; [constructor|].
  rewrite Forall_cons, fmap_cons, NoDup_cons.
  intros [Hno Hnos] [Hnotin Hnd]. constructor; [by apply IH|].
  rewrite Forall_forall in Hd. apply Forall_forall. intros b Hb.
  destruct (no_message_after_no_message d b (Hd b Hb) Hno) as [_ Hle].
  assert (b.1 ≠ d.1).
  { intros Heq. apply Hnotin. rewrite <-Heq. by apply list_elem_of_fmap_2. }
  lia.
Qed.

(** C6. The listing holds every conversation of the snapshot; in it every
    conversation without a message stands after every conversation with
    one, and those without a message stand in descending order of their
    ids, whatever the [updatedAt] values are. *)
Theorem listChats_no_message_last (chats : gmap N Chat) :
  ∃ withMessage noMessage,
    listChats chats = withMessage ++ noMessage
    ∧ withMessage ++ noMessage ≡ₚ map_to_list chats
    ∧ (∀ id c, chats !! id = Some c →
         match lastMessageTimestamp c with
         | Some _ => (id, c) ∈ withMessage
         | None => (id, c) ∈ noMessage
         end)
    ∧ Forall hasMessage withMessage
    ∧ Forall (λ d, ¬ hasMessage d) noMessage
    ∧ StronglySorted (λ a b, (b.1 < a.1)%N) noMessage.
Proof.
  unfold listChats.
  pose proof (sortStage_sorted (map_to_list chats)) as Hs.
  destruct (sorted_message_split _ Hs) as (l1 & l2 & Heq & H1 & H2).
  assert (l1 ++ l2 ≡ₚ map_to_list chats) as Hperm.
  { rewrite <-Heq. apply sortStage_perm. }
  exists l1, l2. split_and!; try done.
  { intros id c Hc. apply elem_of_map_to_list in Hc. rewrite <-Hperm in Hc.
    rewrite Forall_forall in H1, H2.
    apply elem_of_app in Hc as [Hin|Hin].
    - destruct (lastMessageTimestamp c) eqn:Ht; [done|].
      destruct (H1 _ Hin) as [? Hsome]. simpl in Hsome. congruence.
    - destruct (lastMessageTimestamp c) eqn:Ht; [|done].
      destruct (H2 _ Hin). unfold hasMessage. simpl. by rewrite Ht. }
  rewrite Heq in Hs. apply no_message_descending; [|done|].
  - by apply StronglySorted_app_1_r in Hs.
  - assert (NoDup (l1 ++ l2).*1) as Hnd.
    { rewrite <-Heq, sortStage_perm. apply NoDup_fst_map_to_list. }
    rewrite fmap_app in Hnd. by apply NoDup_app in Hnd as (_ & _ & ?).
Qed.

(** A conversation without a message is listed last even when its
    [updatedAt] is the latest of all. *)
Example listChats_empty_chat_last :
  (listChats sampleChats).*1 = [2; 1; 4; 3]%N
  ∧ updatedAt <$> sampleChats !! 3%N = Some 900.
Proof. by vm_compute. Qed.

(** ** Saving without a message *)

Lemma copyPath_lastMessageTimestamp path src dst :
  path ≠ "lastMessageTimestamp" →
  lastMessageTimestamp (copyPath path src dst) = lastMessageTimestamp dst.
Proof. intros Hne. unfold copyPath. simpl. by rewrite decide_False. Qed.


Lemma writeModified_field_lastMessageTimestamp this stored :
  lastMessageTimestamp (writeModified this stored)
  = if decide ("lastMessageTimestamp" ∈ modifiedPaths this)
    then lastMessageTimestamp (fields this)
    else lastMessageTimestamp stored.
Proof.
  unfold writeModified. induction (modifiedPaths this) as [|p ps IH].
  { by rewrite decide_False by apply not_elem_of_nil. }
  cbn [foldr]. destruct (decide (p = "lastMessageTimestamp")) as [->|Hne].
  - by rewrite decide_True by left.
  - rewrite copyPath_lastMessageTimestamp, IH by done.
    destruct (decide ("lastMessageTimestamp" ∈ ps)) as [Hin|Hnot].
    + by rewrite decide_True by (by right).
    + rewrite decide_False; [done|]. rewrite not_elem_of_cons. by split.
Qed.

Lemma copyPath_updatedAt path src dst :
  updatedAt (copyPath path src dst)
  = if decide (path = "updatedAt") then updatedAt src else updatedAt dst.
Proof. reflexivity. Qed.

Lemma writeModified_field_updatedAt this stored :
  updatedAt (writeModified this stored)
  = if decide ("updatedAt" ∈ modifiedPaths this)
    then updatedAt (fields this)
    else updatedAt stored.
Proof.
  unfold writeModified. induction (modifiedPaths this) as [|p ps IH].
  { by rewrite decide_False by apply not_elem_of_nil. }
  cbn [foldr]. rewrite copyPath_updatedAt.
  destruct (decide (p = "updatedAt")) as [->|Hne].
  - by rewrite decide_True by left.
  - rewrite IH. destruct (decide ("updatedAt" ∈ ps)) as [Hin|Hnot].
    + by rewrite decide_True by (by right).
    + rewrite decide_False; [done|]. rewrite not_elem_of_cons. by split.
Qed.




(** A document that holds an older [updatedAt] than the stored one and is
    saved at the very instant it holds marks nothing, and the stored value
    stays. *)
Example save_of_stale_document_keeps_stored_updatedAt :
  updatedAt <$>
    save 100 renamedDoc (<[1%N := summaryOf nextEvent generalChat]> sampleChats)
      !! 1%N
  = Some 150.
Proof. reflexivity. Qed.

Example rename_stores_new_name :
  name <$> save 1000 renamedDoc sampleChats !! 1%N = Some "general talk".
Proof. reflexivity. Qed.

(** * Further properties of the fragments *)

(** ** The store primitive and the update, composed *)

(** X1. [findByIdAndUpdate] never adds or removes a conversation: the ids
    of the collection are the same afterwards, every other conversation is
    untouched, and what the call hands back is what the collection then
    holds under the id, [null] exactly when the id is missing. *)
Theorem findByIdAndUpdate_no_upsert id u (chats : gmap N Chat) :
  dom (findByIdAndUpdate id u chats).1 = dom chats
  ∧ (findByIdAndUpdate id u chats).2 = (findByIdAndUpdate id u chats).1 !! id
  ∧ ((findByIdAndUpdate id u chats).2 = None ↔ chats !! id = None)
  ∧ (∀ other, other ≠ id →
       (findByIdAndUpdate id u chats).1 !! other = chats !! other).
Proof.
  unfold findByIdAndUpdate. destruct (chats !! id) as [c|] eqn:Hc; simpl.
  - split_and!.
    + apply dom_insert_lookup_L. by rewrite Hc.
    + by rewrite lookup_insert_eq.
    + done.
    + intros other Hne. by rewrite lookup_insert_ne.
  - by rewrite Hc.
Qed.

(** X2. Updates of two different conversations can be applied in either
    order: the collection ends up the same. *)
Theorem updateLastMessage_commute chatId1 chatId2 ev1 ev2
    (chats : gmap N Chat) :
  chatId1 ≠ chatId2 →
  (updateLastMessage chatId2 ev2 (updateLastMessage chatId1 ev1 chats).1).1
  = (updateLastMessage chatId1 ev1 (updateLastMessage chatId2 ev2 chats).1).1.
Proof.
  intros Hne.
  destruct (chats !! chatId1) as [c1|] eqn:H1;
    destruct (chats !! chatId2) as [c2|] eqn:H2.
  - rewrite (updateLastMessage_found _ ev1 chats c1 H1),
      (updateLastMessage_found _ ev2 chats c2 H2). simpl.
    rewrite (updateLastMessage_found chatId2 ev2 _ c2)
      by (by rewrite lookup_insert_ne).
    rewrite (updateLastMessage_found chatId1 ev1 _ c1)
      by (by rewrite lookup_insert_ne).
    simpl. by apply insert_insert_ne.
  - rewrite (updateLastMessage_found _ ev1 chats c1 H1),
      (updateLastMessage_missing _ ev2 chats H2). simpl.
    rewrite (updateLastMessage_missing chatId2 ev2)
      by (by rewrite lookup_insert_ne).
    by rewrite (updateLastMessage_found _ ev1 chats c1 H1).
  - rewrite (updateLastMessage_missing _ ev1 chats H1),
      (updateLastMessage_found _ ev2 chats c2 H2). simpl.
    rewrite (updateLastMessage_missing chatId1 ev1)
      by (by rewrite lookup_insert_ne).
    by rewrite (updateLastMessage_found _ ev2 chats c2 H2).
  - rewrite (updateLastMessage_missing _ ev1 chats H1),
      (updateLastMessage_missing _ ev2 chats H2). simpl.
    by rewrite (updateLastMessage_missing _ ev1 chats H1),
      (updateLastMessage_missing _ ev2 chats H2).
Qed.

Lemma updateLastMessage_commute_witness :
  (updateLastMessage 2 lateEvent (updateLastMessage 1 nextEvent sampleChats).1).1
  = (updateLastMessage 1 nextEvent (updateLastMessage 2 lateEvent sampleChats).1).1.
Proof. apply (updateLastMessage_commute 1 2 nextEvent lateEvent). lia. Defined.

Lemma applyEvents_snoc chatId evs ev (chats : gmap N Chat) :
  applyEvents chatId (evs ++ [ev]) chats
  = (updateLastMessage chatId ev (applyEvents chatId evs chats)).1.
Proof. unfold applyEvents. by rewrite foldl_app. Qed.

Lemma applyEvents_lookup chatId evs (chats : gmap N Chat) c :
  chats !! chatId = Some c →
  ∃ c', applyEvents chatId evs chats = <[chatId := c']> chats
        ∧ name c' = name c.
Proof.
  intros Hc. induction evs as [|ev evs IH] using rev_ind.
  - exists c. split; [|done]. symmetry. by apply insert_id.
  - destruct IH as (c' & Heq & Hname). rewrite applyEvents_snoc, Heq.
    rewrite (updateLastMessage_found _ _ _ c') by (by rewrite lookup_insert_eq).
    simpl. exists (summaryOf ev c'). by rewrite insert_insert_eq.
Qed.

(** X3. The last event applied wins: after any events followed by [ev],
    the stored summary is the one [ev] alone would have left, whatever the
    [createdAt] of the events before it. *)
Theorem applyEvents_last_wins chatId evs ev (chats : gmap N Chat) c :
  chats !! chatId = Some c →
  applyEvents chatId (evs ++ [ev]) chats = <[chatId := summaryOf ev c]> chats
  ∧ applyEvents chatId (evs ++ [ev]) chats
    = (updateLastMessage chatId ev chats).1.
Proof.
  intros Hc.
  assert (applyEvents chatId (evs ++ [ev]) chats
          = <[chatId := summaryOf ev c]> chats) as Heq.
  { destruct (applyEvents_lookup chatId evs chats c Hc) as (c' & Heq & Hname).
    rewrite applyEvents_snoc, Heq.
    rewrite (updateLastMessage_found _ _ _ c') by (by rewrite lookup_insert_eq).
    simpl. rewrite insert_insert_eq. f_equal.
    unfold summaryOf. by rewrite Hname. }
  split; [done|]. by rewrite Heq, (updateLastMessage_found _ _ _ c Hc).
Qed.

Lemma applyEvents_last_wins_witness :
  applyEvents 1 ([nextEvent] ++ [lateEvent]) sampleChats
    = <[1%N := summaryOf lateEvent generalChat]> sampleChats
  ∧ applyEvents 1 ([nextEvent] ++ [lateEvent]) sampleChats
    = (updateLastMessage 1 lateEvent sampleChats).1.
Proof.
  apply (applyEvents_last_wins 1 [nextEvent] lateEvent sampleChats generalChat).
  reflexivity.
Defined.

(** ** The listing after a message *)

Lemma StronglySorted_filter_keep {A} (R : relation A) (P : A → Prop)
    `{∀ x, Decision (P x)} (l : list A) :
  StronglySorted R l → StronglySorted R (filter P l).
Proof.
  induction 1 as [|x l Hs IH Hx]; [constructor|].
  rewrite filter_cons. destruct (decide (P x)); [|done].
  constructor; [done|]. apply Forall_forall.
  intros y [_ Hy]%list_elem_of_filter. rewrite Forall_forall in Hx. auto.
Qed.

Lemma listChats_delete chatId (chats : gmap N Chat) :
  filter (λ d : N * Chat, d.1 ≠ chatId) (listChats chats)
  = listChats (delete chatId chats).
Proof.
  assert (filter (λ d : N * Chat, d.1 ≠ chatId) (listChats chats)
          ≡ₚ map_to_list (delete chatId chats)) as Hperm.
  { unfold listChats. rewrite sortStage_perm.
    apply NoDup_Permutation.
    - apply NoDup_filter, NoDup_map_to_list.
    - apply NoDup_map_to_list.
    - intros [i x].
      rewrite list_elem_of_filter, !elem_of_map_to_list, lookup_delete_Some.
      simpl. split; intros [Hne Hix]; (split; [|done]); by intros ->. }
  apply (StronglySorted_unique_strong (sortLe sortAfter)).
  - intros a b Ha Hb Hab Hba.
    apply (same_id_same_doc (map_to_list (delete chatId chats)));
      [apply NoDup_fst_map_to_list|by rewrite <-Hperm| |].
    + unfold listChats in Hb. by rewrite sortStage_perm in Hb.
    + by apply sortLe_after_antisym.
  - apply StronglySorted_filter_keep, sortStage_sorted.
  - apply sortStage_sorted.
  - rewrite Hperm. unfold listChats. by rewrite sortStage_perm.
Qed.

(** X4. A message whose [createdAt] is not earlier than the last message
    of any other conversation, and which wins the tie on the id where the
    instants are equal, puts its conversation first in the listing: the
    test script's [chatIndex] is [0]. *)
Theorem newest_message_on_top chatId ev (chats : gmap N Chat) c :
  chats !! chatId = Some c →
  (∀ id c', id ≠ chatId → chats !! id = Some c' →
     tsLe (lastMessageTimestamp c') (Some (createdAt (message ev)))
     ∧ (lastMessageTimestamp c' = Some (createdAt (message ev)) →
        (id < chatId)%N)) →
  head (listChats (updateLastMessage chatId ev chats).1)
    = Some (chatId, summaryOf ev c)
  ∧ chatIndex chatId (listChats (updateLastMessage chatId ev chats).1) = 0.
Proof.
  intros Hc Hothers. rewrite (updateLastMessage_found _ _ _ _ Hc). simpl.
  set (chats' := <[chatId := summaryOf ev c]> chats).
  assert ((chatId, summaryOf ev c) ∈ listChats chats') as Hin.
  { unfold listChats. rewrite sortStage_perm, elem_of_map_to_list.
    subst chats'. by rewrite lookup_insert_eq. }
  pose proof (sortStage_sorted (map_to_list chats')) as Hs.
  fold (listChats chats') in Hs.
  assert (∀ x, x ∈ listChats chats' → chats' !! x.1 = Some x.2) as Hmem.
  { intros [i x]. unfold listChats.
    by rewrite sortStage_perm, elem_of_map_to_list. }
  destruct (listChats chats') as [|x rest] eqn:HL; [by apply elem_of_nil in Hin|].
  assert (x = (chatId, summaryOf ev c)) as ->.
  { apply elem_of_cons in Hin as [->|Hin]; [done|].
    apply StronglySorted_cons in Hs as [Hx _]. rewrite Forall_forall in Hx.
    specialize (Hx _ Hin). apply sortLe_after_iff in Hx.
    pose proof (Hmem x ltac:(left)) as Hxm. destruct x as [i cx].
    simpl in Hxm. destruct (decide (i = chatId)) as [->|Hne].
    { subst chats'. rewrite lookup_insert_eq in Hxm. by simplify_eq. }
    subst chats'. rewrite lookup_insert_ne in Hxm by done.
    destruct (Hothers i cx Hne Hxm) as [Hle Htie].
    unfold keyBefore, sortKey in Hx. simpl in Hx.
    destruct Hx as [[Hge Hneq]|[Heq Hid]].
    - destruct (lastMessageTimestamp cx) as [t|]; simpl in *; [|done].
      destruct Hneq. f_equal. lia.
    - specialize (Htie Heq). lia. }
  split; [done|]. unfold chatIndex. simpl. by rewrite N.eqb_refl.
Qed.

Lemma newest_message_on_top_witness :
  head (listChats (updateLastMessage 1 nextEvent sampleChats).1)
    = Some (1%N, summaryOf nextEvent generalChat)
  ∧ chatIndex 1 (listChats (updateLastMessage 1 nextEvent sampleChats).1) = 0.
Proof.
  apply (newest_message_on_top 1 nextEvent sampleChats generalChat).
  - reflexivity.
  - assert (map_Forall (λ (id : N) (c' : Chat), id ≠ 1%N →
              tsLe (lastMessageTimestamp c') (Some 150)
              ∧ (lastMessageTimestamp c' = Some 150 → (id < 1)%N))
            sampleChats) as Hall.
    { match goal with |- ?P => apply (bool_decide_unpack P) end.
      vm_compute. exact I. }
    intros id c' Hne Hc'. exact (Hall id c' Hc' Hne).
Defined.

(** X5. A message moves no conversation but its own: the other
    conversations stand in the listing in the order they stood in before. *)
Theorem updateLastMessage_keeps_others_order chatId ev (chats : gmap N Chat) :
  filter (λ d : N * Chat, d.1 ≠ chatId)
         (listChats (updateLastMessage chatId ev chats).1)
  = filter (λ d : N * Chat, d.1 ≠ chatId) (listChats chats).
Proof.
  rewrite !listChats_delete. f_equal.
  destruct (chats !! chatId) as [c|] eqn:Hc.
  - rewrite (updateLastMessage_found _ _ _ _ Hc). simpl.
    apply delete_insert_eq.
  - by rewrite (updateLastMessage_missing _ _ _ Hc).
Qed.

(** X6. The listing shows every conversation of the snapshot once and
    nothing else. *)
Theorem listChats_each_once (chats : gmap N Chat) :
  (∀ id c, (id, c) ∈ listChats chats ↔ chats !! id = Some c)
  ∧ NoDup (listChats chats).*1
  ∧ length (listChats chats) = size chats.
Proof.
  unfold listChats. split_and!.
  - intros id c. by rewrite sortStage_perm, elem_of_map_to_list.
  - rewrite sortStage_perm. apply NoDup_fst_map_to_list.
  - rewrite sortStage_perm. apply length_map_to_list.
Qed.

(** ** The sort stage under any specification *)

Lemma bsonCompare_antisym a b : bsonCompare b a = CompOpp (bsonCompare a b).
Proof.
  destruct a, b; simpl; try done.
  - apply String.compare_antisym.
  - apply N.compare_antisym.
  - apply Z.compare_antisym.
Qed.

Lemma sortCompare_antisym spec a b :
  sortCompare spec b a = CompOpp (sortCompare spec a b).
Proof.
  induction spec as [|[path dir] spec IH]; [done|]. simpl.
  rewrite bsonCompare_antisym.
  destruct (bsonCompare (getPath path a) (getPath path b)); simpl;
    [done|by destruct (dir <? 0)..].
Qed.

Global Instance sortLe_total spec : Total (sortLe spec).
Proof.
  intros a b. unfold sortLe. rewrite (sortCompare_antisym spec a b).
  destruct (sortCompare spec a b); simpl; auto.
Qed.

(** X7. Whatever the sort specification, the stage hands back the
    documents it was given, each before a document it may stand before, and
    comparing two documents the other way round gives the opposite answer. *)
Theorem sortStage_any_spec spec docs :
  sortStage spec docs ≡ₚ docs
  ∧ Sorted (sortLe spec) (sortStage spec docs)
  ∧ (∀ a b, sortCompare spec b a = CompOpp (sortCompare spec a b)).
Proof.
  split_and!.
  - apply sortStage_perm.
  - apply Sorted_merge_sort, _.
  - intros a b. apply sortCompare_antisym.
Qed.

Lemma bsonCompare_same_date (t : option Z) :
  bsonCompare (from_option BDate BNull t) (from_option BDate BNull t) = Eq.
Proof. destruct t; simpl; [apply Z.compare_refl|done]. Qed.

(** X8. The specification used before the fix leaves a tie between any two
    conversations with the same [lastMessageTimestamp] and the same
    [updatedAt]: each compares equal to the other, so the specification is
    met with either of them listed first and does not say which one is. *)
Theorem sortBefore_leaves_ties (a b : N * Chat) :
  lastMessageTimestamp a.2 = lastMessageTimestamp b.2 →
  updatedAt a.2 = updatedAt b.2 →
  sortCompare sortBefore a b = Eq
  ∧ sortCompare sortBefore b a = Eq
  ∧ Sorted (sortLe sortBefore) [a; b]
  ∧ Sorted (sortLe sortBefore) [b; a].
Proof.
  intros Hts Hup.
  assert (∀ x y : N * Chat,
    lastMessageTimestamp x.2 = lastMessageTimestamp y.2 →
    updatedAt x.2 = updatedAt y.2 → sortCompare sortBefore x y = Eq) as Htie.
  { intros x y Hxy Hxy'. unfold sortBefore, sortCompare, getPath. simpl.
    rewrite Hxy, Hxy', bsonCompare_same_date. by rewrite Z.compare_refl. }
  assert (∀ x y : N * Chat, sortCompare sortBefore x y = Eq →
    Sorted (sortLe sortBefore) [x; y]) as Hboth.
  { intros x y Hxy. repeat constructor. unfold sortLe. by rewrite Hxy. }
  split_and!; auto.
Qed.

Lemma sortBefore_leaves_ties_witness :
  sortCompare sortBefore tiedGeneral tiedRandom = Eq
  ∧ sortCompare sortBefore tiedRandom tiedGeneral = Eq
  ∧ Sorted (sortLe sortBefore) [tiedGeneral; tiedRandom]
  ∧ Sorted (sortLe sortBefore) [tiedRandom; tiedGeneral].
Proof.
  apply (sortBefore_leaves_ties tiedGeneral tiedRandom); reflexivity.
Defined.

(** The specification of the fix breaks that tie by the id. *)
Example sortAfter_breaks_the_tie :
  sortCompare sortAfter tiedGeneral tiedRandom = Gt
  ∧ ¬ Sorted (sortLe sortAfter) [tiedGeneral; tiedRandom].
Proof.
  split; [reflexivity|]. intros Hs. inversion Hs as [|? ? _ Hhd]; subst.
  inversion Hhd as [|? ? Hle]; subst. by apply Hle.
Qed.

(** X9. The update written before the fix and the one written after it
    differ in [updatedAt] only, which the sort does not read: they lead to
    the same order of conversations in the listing. *)
Theorem listing_same_for_both_updates now chatId ev (chats : gmap N Chat) :
  (listChats (findByIdAndUpdate chatId (lastMessageUpdate_before now ev) chats).1).*1
  = (listChats (updateLastMessage chatId ev chats).1).*1.
Proof.
  apply listChats_ids. unfold updateLastMessage, findByIdAndUpdate.
  destruct (chats !! chatId) as [c|]; [|done]. simpl.
  by rewrite !fmap_insert.
Qed.

(** ** The save hook, further *)

(** X10. The hook changes nothing of a document but [updatedAt], which
    it leaves or sets to [now], and marks no path but [updatedAt]. *)
Theorem preSave_only_updatedAt now this :
  _id (preSave now this) = _id this
  ∧ isNew (preSave now this) = isNew this
  ∧ eraseUpdatedAt (fields (preSave now this)) = eraseUpdatedAt (fields this)
  ∧ (updatedAt (fields (preSave now this)) = updatedAt (fields this)
     ∨ updatedAt (fields (preSave now this)) = now)
  ∧ (modifiedPaths (preSave now this) = modifiedPaths this
     ∨ modifiedPaths (preSave now this) = "updatedAt" :: modifiedPaths this).
Proof.
  unfold preSave.
  destruct (isModified this && negb (isNew this));
    [destruct (negb (isModifiedPath "lastMessageTimestamp" this))|];
    [unfold assignUpdatedAt; destruct (decide _)|..];
    simpl; split_and!; auto.
Qed.

Lemma assignUpdatedAt_same v this :
  v = updatedAt (fields this) → assignUpdatedAt v this = this.
Proof. intros Heq. unfold assignUpdatedAt. by rewrite decide_True. Qed.

(** X11. The fix changed the hook on one kind of save only: the hook
    after the fix and the hook before it do the same to a document unless
    the document is stored already, has [lastMessageTimestamp] among its
    modified paths, and holds an [updatedAt] other than the clock's
    instant. *)
Theorem preSave_differs_only_on_message_saves now this :
  preSave now this = preSave_before now this
  ↔ "lastMessageTimestamp" ∉ modifiedPaths this
    ∨ isNew this = true
    ∨ now = updatedAt (fields this).
Proof.
  split.
  - intros Heq. destruct (isNew this) eqn:Hnew; [by right; left|].
    destruct (decide (now = updatedAt (fields this))) as [?|Hclock];
      [by right; right|left].
    intros Hin. rewrite preSave_defers in Heq by done.
    unfold preSave_before in Heq.
    assert (isModified this = true) as Hmod.
    { apply isModified_true. intros Hnil. rewrite Hnil in Hin.
      by apply elem_of_nil in Hin. }
    rewrite Hmod, Hnew in Heq. simpl in Heq.
    apply (f_equal (λ d, updatedAt (fields d))) in Heq. simpl in Heq.
    rewrite assignUpdatedAt_updatedAt in Heq. by apply Hclock.
  - intros [Hnot%isModifiedPath_false|[Hnew|Hclock]].
    + unfold preSave, preSave_before. by rewrite Hnot.
    + rewrite preSave_idle by auto. unfold preSave_before.
      by rewrite Hnew, andb_false_r.
    + unfold preSave, preSave_before.
      rewrite (assignUpdatedAt_same _ _ Hclock).
      by destruct (isModified this && negb (isNew this)),
                  (negb (isModifiedPath "lastMessageTimestamp" this)).
Qed.

(** X12. A save of a stored conversation that modifies
    [lastMessageTimestamp] stores the instants the caller assigned and never
    the clock: the outcome is the same whenever the hook runs, the stored
    [lastMessageTimestamp] is the document's, and [updatedAt] is the
    document's when the caller assigned it and stays as stored when not. *)
Theorem save_with_message_ignores_clock now doc (chats : gmap N Chat) stored :
  chats !! _id doc = Some stored → isNew doc = false →
  "lastMessageTimestamp" ∈ modifiedPaths doc →
  ∃ stored',
    save now doc chats !! _id doc = Some stored'
    ∧ (∀ now', save now' doc chats = save now doc chats)
    ∧ lastMessageTimestamp stored' = lastMessageTimestamp (fields doc)
    ∧ updatedAt stored'
      = if decide ("updatedAt" ∈ modifiedPaths doc)
        then updatedAt (fields doc) else updatedAt stored.
Proof.
  intros Hst Hnew Hin.
  assert (∀ t, save t doc chats = <[_id doc := writeModified doc stored]> chats)
    as Hsave.
  { intros t. unfold save. rewrite preSave_defers by done. simpl.
    by rewrite Hnew, Hst. }
  exists (writeModified doc stored). rewrite Hsave, lookup_insert_eq.
  split_and!.
  - done.
  - intros now'. by rewrite !Hsave.
  - by rewrite writeModified_field_lastMessageTimestamp, decide_True.
  - apply writeModified_field_updatedAt.
Qed.

Lemma save_with_message_ignores_clock_witness :
  ∃ stored',
    save 1000 messageDoc sampleChats !! 1%N = Some stored'
    ∧ (∀ now', save now' messageDoc sampleChats = save 1000 messageDoc sampleChats)
    ∧ lastMessageTimestamp stored' = Some 150
    ∧ updatedAt stored'
      = if decide ("updatedAt" ∈ modifiedPaths messageDoc)
        then 150 else 100.
Proof.
  apply (save_with_message_ignores_clock 1000 messageDoc sampleChats generalChat).
  - reflexivity.
  - reflexivity.
  - apply isModifiedPath_true. reflexivity.
Defined.

(** ** The checks of the test script *)

(** X13. After an update of a stored conversation the script's comparison
    of the two instants finds no difference at all and reports them
    consistent. *)
Theorem script_finds_update_consistent chatId ev (chats : gmap N Chat) c :
  chats !! chatId = Some c →
  ∃ c' t,
    (updateLastMessage chatId ev chats).2 = Some c'
    ∧ lastMessageTimestamp c' = Some t
    ∧ timeDiff (JDate t) (JDate (updatedAt c')) = Some 0
    ∧ timestampsConsistent (JDate t) (JDate (updatedAt c')) = true.
Proof.
  intros Hc. exists (summaryOf ev c), (createdAt (message ev)).
  rewrite (updateLastMessage_found _ _ _ _ Hc).
  unfold timestampsConsistent, timeDiff. simpl.
  by rewrite Z.sub_diag.
Qed.

Lemma script_finds_update_consistent_witness :
  ∃ c' t,
    (updateLastMessage 1 nextEvent sampleChats).2 = Some c'
    ∧ lastMessageTimestamp c' = Some t
    ∧ timeDiff (JDate t) (JDate (updatedAt c')) = Some 0
    ∧ timestampsConsistent (JDate t) (JDate (updatedAt c')) = true.
Proof.
  apply (script_finds_update_consistent 1 nextEvent sampleChats generalChat).
  reflexivity.
Defined.

(** X14. The script's comparison allows a second of difference: it
    reports the update written before the fix consistent exactly when the
    clock read and the message's [createdAt] are less than 1000 ms apart,
    and reports a conversation whose [lastMessageTimestamp] is left out of
    the response inconsistent. *)
Theorem script_tolerates_a_second now ev c upd :
  lastMessageTimestamp (applyUpdate (lastMessageUpdate_before now ev) c)
    = Some (createdAt (message ev))
  ∧ updatedAt (applyUpdate (lastMessageUpdate_before now ev) c) = now
  ∧ (timestampsConsistent (JDate (createdAt (message ev))) (JDate now) = true
     ↔ Z.abs (createdAt (message ev) - now) < 1000)
  ∧ timestampsConsistent JUndefined upd = false.
Proof.
  split_and!; try done.
  unfold timestampsConsistent, timeDiff. simpl. apply Z.ltb_lt.
Qed.

Lemma findIndex_range {A} (p : A → bool) (l : list A) :
  -1 ≤ findIndex p l < Z.of_nat (length l).
Proof.
  induction l as [|x l IH]; simpl; [lia|].
  destruct (p x); [lia|]. destruct (Z.eqb_spec (findIndex p l) (-1)); lia.
Qed.

Lemma findIndex_none {A} (p : A → bool) (l : list A) :
  findIndex p l = -1 ↔ Forall (λ x, p x = false) l.
Proof.
  induction l as [|x l IH]; simpl; [by split|].
  rewrite Forall_cons, <-IH. pose proof (findIndex_range p l).
  destruct (p x); [split; [lia|by intros [? _]]|].
  destruct (Z.eqb_spec (findIndex p l) (-1)); split; intros Hh;
    first [ done | lia | by destruct Hh | by split ].
Qed.

Lemma findIndex_found {A} (p : A → bool) (l : list A) :
  0 ≤ findIndex p l →
  ∃ x, l !! Z.to_nat (findIndex p l) = Some x ∧ p x = true.
Proof.
  induction l as [|x l IH]; simpl; [lia|].
  destruct (p x) eqn:Hp; [intros _; by exists x|].
  pose proof (findIndex_range p l).
  destruct (Z.eqb_spec (findIndex p l) (-1)); [lia|]. intros _.
  destruct IH as (y & Hy & Hpy); [lia|]. exists y. split; [|done].
  replace (Z.to_nat (findIndex p l + 1)) with (S (Z.to_nat (findIndex p l)))
    by lia.
  done.
Qed.

Lemma findIndex_zero {A} (p : A → bool) (l : list A) :
  findIndex p l = 0 ↔ ∃ x, head l = Some x ∧ p x = true.
Proof.
  destruct l as [|x l]; simpl.
  { split; [lia|by intros (? & ? & ?)]. }
  pose proof (findIndex_range p l).
  destruct (p x) eqn:Hp.
  - split; [intros _; by exists x|done].
  - destruct (Z.eqb_spec (findIndex p l) (-1)); split; try lia;
      intros (y & ? & ?); simplify_eq; congruence.
Qed.

(** X15. The script looks a conversation up in the listing by its id: it
    gets [-1] exactly when the conversation is not stored, and otherwise
    the place at which the listing shows that conversation. *)
Theorem chatIndex_in_listing testChatId (chats : gmap N Chat) :
  (chatIndex testChatId (listChats chats) = -1 ↔ chats !! testChatId = None)
  ∧ (∀ c, chats !! testChatId = Some c →
       0 ≤ chatIndex testChatId (listChats chats) < Z.of_nat (size chats)
       ∧ listChats chats !! Z.to_nat (chatIndex testChatId (listChats chats))
         = Some (testChatId, c)).
Proof.
  assert (∀ d, d ∈ listChats chats ↔ chats !! d.1 = Some d.2) as Hmem.
  { intros [i x]. unfold listChats.
    by rewrite sortStage_perm, elem_of_map_to_list. }
  assert (chatIndex testChatId (listChats chats) = -1
          ↔ chats !! testChatId = None) as Hnone.
  { unfold chatIndex. rewrite findIndex_none, Forall_forall. split.
    - intros Hall. destruct (chats !! testChatId) as [c|] eqn:Hc; [|done].
      specialize (Hall (testChatId, c)). simpl in Hall.
      rewrite N.eqb_refl in Hall. exfalso.
      assert (true = false) as Habs by (apply Hall, Hmem; done). done.
    - intros Hc [i x] Hin. simpl. apply N.eqb_neq. intros ->.
      apply Hmem in Hin. simpl in Hin. congruence. }
  split; [done|]. intros c Hc.
  pose proof (findIndex_range (λ chat : N * Chat, N.eqb chat.1 testChatId)
                (listChats chats)) as Hrange.
  fold (chatIndex testChatId (listChats chats)) in Hrange.
  assert (chatIndex testChatId (listChats chats) ≠ -1) as Hne.
  { rewrite Hnone. congruence. }
  assert (length (listChats chats) = size chats) as Hlen.
  { unfold listChats. rewrite sortStage_perm. apply length_map_to_list. }
  split; [lia|].
  destruct (findIndex_found (λ chat : N * Chat, N.eqb chat.1 testChatId)
              (listChats chats)) as ([i x] & Hix & Hp).
  { fold (chatIndex testChatId (listChats chats)). lia. }
  fold (chatIndex testChatId (listChats chats)) in Hix. rewrite Hix.
  simpl in Hp. apply N.eqb_eq in Hp as ->.
  apply list_elem_of_lookup_2, Hmem in Hix. simpl in Hix. congruence.
Qed.

Lemma chatIndex_pos_or_none chatId (chats : gmap N Chat) :
  chatIndex chatId (listChats chats) ≠ 0 →
  chatIndex chatId (listChats chats) = -1
  ∨ 0 < chatIndex chatId (listChats chats).
Proof.
  intros Hnz.
  pose proof (findIndex_range (λ chat : N * Chat, N.eqb chat.1 chatId)
                (listChats chats)) as Hrange.
  fold (chatIndex chatId (listChats chats)) in Hrange. lia.
Qed.

(** X16. A message created before the last message of some other
    conversation does not bring its conversation to the top, although it
    has just arrived: the script's [chatIndex] is not [0]. *)
Theorem older_message_not_on_top chatId other ev (chats : gmap N Chat) c c' t :
  chats !! chatId = Some c → chats !! other = Some c' → other ≠ chatId →
  lastMessageTimestamp c' = Some t → createdAt (message ev) < t →
  chatIndex chatId (listChats (updateLastMessage chatId ev chats).1) ≠ 0
  ∧ 0 < chatIndex chatId (listChats (updateLastMessage chatId ev chats).1).
Proof.
  intros Hc Hc' Hne Ht Hlt. rewrite (updateLastMessage_found _ _ _ _ Hc). simpl.
  set (chats' := <[chatId := summaryOf ev c]> chats).
  assert (chatIndex chatId (listChats chats') ≠ 0) as Hnz.
  { unfold chatIndex. rewrite findIndex_zero. intros ([i x] & Hhead & Hp).
    simpl in Hp. apply N.eqb_eq in Hp as ->.
    apply head_Some in Hhead as [rest Hrest].
    assert ((other, c') ∈ listChats chats') as Hin.
    { unfold listChats. rewrite sortStage_perm, elem_of_map_to_list.
      subst chats'. by rewrite lookup_insert_ne. }
    assert ((chatId, x) ∈ listChats chats') as Hinx by (rewrite Hrest; left).
    unfold listChats in Hinx.
    rewrite sortStage_perm, elem_of_map_to_list in Hinx. subst chats'.
    rewrite lookup_insert_eq in Hinx. simplify_eq.
    pose proof (sortStage_sorted
      (map_to_list (<[chatId := summaryOf ev c]> chats))) as Hs.
    fold (listChats (<[chatId := summaryOf ev c]> chats)) in Hs.
    rewrite Hrest in Hs, Hin.
    apply StronglySorted_cons in Hs as [Hx _]. rewrite Forall_forall in Hx.
    apply elem_of_cons in Hin as [Heq|Hin]; [by simplify_eq|].
    specialize (Hx _ Hin). apply sortLe_after_iff in Hx.
    unfold keyBefore, sortKey in Hx. simpl in Hx. rewrite Ht in Hx.
    simpl in Hx. destruct Hx as [[? ?]|[? ?]]; simplify_eq; lia. }
  split; [done|].
  destruct (chatIndex_pos_or_none chatId chats' Hnz) as [Hnone|?]; [|done].
  exfalso. unfold chatIndex in Hnone. rewrite findIndex_none, Forall_forall in Hnone.
  specialize (Hnone (chatId, summaryOf ev c)). simpl in Hnone.
  rewrite N.eqb_refl in Hnone.
  assert (true = false) as Habs; [apply Hnone|done].
  unfold listChats. rewrite sortStage_perm, elem_of_map_to_list.
  subst chats'. by rewrite lookup_insert_eq.
Qed.

Lemma older_message_not_on_top_witness :
  chatIndex 1 (listChats (updateLastMessage 1 lateEvent sampleChats).1) ≠ 0
  ∧ 0 < chatIndex 1 (listChats (updateLastMessage 1 lateEvent sampleChats).1).
Proof.
  apply (older_message_not_on_top 1 2 lateEvent sampleChats generalChat
           randomChat 100); try reflexivity; lia.
Defined.
